(** * A todo list, twice: the React [App] and the Svelte store

    The repository implements one small application in two frameworks.  Its
    code is TypeScript/JSX and Svelte markup:

    - [App] (React): [useState(initialTodos)], [toggleTodo], [addTodo];
    - [AddTodoForm] (React): [useState('')] and the button's [onClick];
    - [AddTodoForm.svelte]: [let text = ""] and the button's [on:click];
    - [todoListStore.ts]: [writable(initialTodos)].

    A [Todo] is a JavaScript object, so a value of type [Todo] is a
    _reference_; [todo === selectedTodo] compares references, and the object
    spread [{...todo, complete: !todo.complete}] allocates a new object.  The
    embedding therefore has a heap of objects, arrays of references, and a
    small state-and-error monad in which the handlers are written the way the
    source writes them. *)

From stdpp Require Import gmap strings list fin_maps.

(** ** Objects, references and the heap *)

(** [{ text: string, complete: boolean }] *)
Record Todo := mkTodo { text : string; complete : bool }.

(** An object reference.  [===] on objects is equality of references. *)
Abbreviation loc := positive (only parsing).

(** Everything the handlers can see: the objects allocated so far, the
    [Todo[]] held by [useState(initialTodos)] (React) or by the store
    (Svelte, [$todoListStore]), and the local [text] of the add form
    ([useState('')], resp. [let text = ""]). *)
Record world := mkWorld {
  heap : gmap loc Todo;
  todos : list loc;
  text_input : string
}.

(** ** The monad of handler code

    A computation reads and writes the [world]; [None] is a run-time error
    (the only one the embedding has is a property read through a reference
    that points to no object). *)
Definition M (A : Type) : Type := world → option (A * world).

Definition ret {A} (a : A) : M A := λ w, Some (a, w).

Definition bind {A B} (m : M A) (k : A → M B) : M B :=
  λ w, match m w with
       | Some (a, w') => k a w'
       | None => None
       end.

Notation "'let*' x ':=' m 'in' k" := (bind m (λ x, k))
  (at level 10, x name, m at level 100, k at level 200,
   format "'[v' 'let*'  x  :=  m  'in' '/' k ']'").
Notation "'run' m 'in' k" := (bind m (λ _, k))
  (at level 10, m at level 100, k at level 200,
   format "'[v' 'run'  m  'in' '/' k ']'").

(** The world a handler leaves behind. *)
Definition exec {A} (m : M A) (w : world) : option world :=
  snd <$> m w.

(** An object literal: a new object at a reference not in use. *)
Definition new_object (o : Todo) : M loc :=
  λ w, let l := fresh (dom (heap w)) in
       Some (l, mkWorld (<[l := o]> (heap w)) (todos w) (text_input w)).

(** Reading the properties of the object behind a reference. *)
Definition deref (l : loc) : M Todo :=
  λ w, match heap w !! l with
       | Some o => Some (o, w)
       | None => None
       end.

(** The current [todos] / [$todoListStore]. *)
Definition get_todos : M (list loc) := λ w, Some (todos w, w).

(** [setTodos(v)] / [$todoListStore = v]. *)
Definition setTodos (v : list loc) : M unit :=
  λ w, Some (tt, mkWorld (heap w) v (text_input w)).

(** The form's current [text]. *)
Definition get_text : M string := λ w, Some (text_input w, w).

(** [setText(v)] / [text = v]. *)
Definition setText (v : string) : M unit :=
  λ w, Some (tt, mkWorld (heap w) (todos w) v).

(** [xs.map(f)]: the callback runs on the elements from left to right. *)
Fixpoint array_map {A B} (f : A → M B) (xs : list A) : M (list B) :=
  match xs with
  | [] => ret []
  | x :: xs' =>
      let* y := f x in
      let* ys := array_map f xs' in
      ret (y :: ys)
  end.

(** ** App (React)

    [toggleTodo] and [addTodo] are closures made anew at each render of [App];
    the [todos] they read is the state value of that render.  A handler is
    run from the latest render, so [get_todos] reads the current value. *)

(** The callback of [todos.map] in [toggleTodo]:
<<
    (todo) => {
      if (todo === selectedTodo) {
        return { ...todo, complete: !todo.complete };
      }
      return todo;
    }
>> *)
Definition toggle_callback (selectedTodo todo : loc) : M loc :=
  if decide (todo = selectedTodo) then
    let* o := deref todo in
    new_object {| text := text o; complete := negb (complete o) |}
  else ret todo.

(** [toggleTodo]:
<<
    const newTodos = todos.map(...);
    setTodos(newTodos);
>> *)
Definition toggleTodo (selectedTodo : loc) : M unit :=
  let* todos := get_todos in
  let* newTodos := array_map (toggle_callback selectedTodo) todos in
  setTodos newTodos.

(** [addTodo]:
<<
    const newTodo = { text, complete: false };
    setTodos([...todos, newTodo]);
>> *)
Definition addTodo (text : string) : M unit :=
  let* newTodo := new_object (mkTodo text false) in
  let* todos := get_todos in
  setTodos (todos ++ [newTodo]).

(** ** AddTodoForm (React): the button's [onClick]
<<
    e.preventDefault();
    addTodo(text);
    setText('');
>> *)
Definition AddTodoForm_onClick : M unit :=
  let* text := get_text in
  run addTodo text in
  setText "".

(** ** AddTodoForm.svelte: the button's [on:click|preventDefault]
<<
    $todoListStore = [...$todoListStore, { text, complete: false }];
    text = '';
>> *)
Definition AddTodoForm_svelte_on_click : M unit :=
  let* todoListStore := get_todos in
  let* text := get_text in
  let* newTodo := new_object (mkTodo text false) in
  run setTodos (todoListStore ++ [newTodo]) in
  setText "".

(** ** Observations on a world *)

(** No reference of the collection dangles. *)
Definition wf (w : world) : Prop :=
  Forall (λ l, is_Some (heap w !! l)) (todos w).

(** The record at index [i] of the collection. *)
Definition record_at (w : world) (i : nat) : option Todo :=
  match todos w !! i with
  | Some l => heap w !! l
  | None => None
  end.

(** The collection as a sequence of records. *)
Definition records (w : world) : option (list Todo) :=
  mapM (λ l, heap w !! l) (todos w).

(** What [{...todo, complete: !todo.complete}] holds. *)
Definition flipped (o : Todo) : Todo :=
  {| text := text o; complete := negb (complete o) |}.

(** The state-changing operations, and a run of several of them, each by the
    handler of the render that follows the one before. *)
Inductive op := Add (text : string) | Toggle (selectedTodo : loc).

Definition run_op (o : op) : M unit :=
  match o with
  | Add text => addTodo text
  | Toggle selectedTodo => toggleTodo selectedTodo
  end.

(** Handlers run one after the other, each on the world the one before left;
    an error ends the run. *)
Fixpoint exec_all (ms : list (M unit)) (w : world) : option world :=
  match ms with
  | [] => Some w
  | m :: ms' =>
      match exec m w with
      | Some w' => exec_all ms' w'
      | None => None
      end
  end.

Definition run_ops (os : list op) : world → option world :=
  exec_all (run_op <$> os).

(** The user types [text] into the input ([bind:value={text}]) and presses
    the button of [AddTodoForm.svelte]. *)
Definition svelte_submit (text : string) : M unit :=
  run setText text in
  AddTodoForm_svelte_on_click.

(** [w'] is [w] with one new object [{text, complete: false}] whose reference
    is appended to the collection; nothing else differs but the form's text. *)
Definition appended (w : world) (text : string) (w' : world) : Prop :=
  ∃ newTodo,
    heap w !! newTodo = None
    ∧ heap w' = <[newTodo := mkTodo text false]> (heap w)
    ∧ todos w' = todos w ++ [newTodo].

(** ** The observable state container *)

(** An observer is a callback; the embedding keeps its name only. *)
Abbreviation observer := nat (only parsing).

(** Modelled from the spec: the container that holds the collection and
    notifies observers.  In the sources it is [writable(initialTodos)] of
    [svelte/store] (resp. React's [useState] and re-rendering), libraries
    whose code is not part of the repository's files; only the declaration
    [export default writable(initialTodos)] and the uses [$todoListStore] are.
    The container has the collection it holds (with the objects, in [held]),
    the registered observers in registration order, and, to speak about
    notification, the calls made to observers so far, oldest first, each with
    the value it was passed. *)
Record container := mkContainer {
  held : world;
  observers : list observer;
  calls : list (observer * list loc)
}.

(** Modelled from the spec: "(a) a way to read the current collection value
    synchronously". *)
Definition current (c : container) : list loc := todos (held c).

(** Modelled from the spec: "(c) a way to register an observer callback
    invoked with the new value whenever it changes". *)
Definition register (o : observer) (c : container) : container :=
  mkContainer (held c) (observers c ++ [o]) (calls c).

(** Modelled from the spec: "(d) a way to deregister an observer". *)
Definition deregister (o : observer) (c : container) : container :=
  mkContainer (held c) (filter (λ o', o' ≠ o) (observers c)) (calls c).

(** Modelled from the spec: "fan-out to all current observers in registration
    order", each "with the new collection". *)
Definition notify (c : container) : container :=
  mkContainer (held c) (observers c)
              (calls c ++ ((λ o, (o, current c)) <$> observers c)).

(** Modelled from the spec: a state-changing operation "computes a new
    collection ..., stores it, notifies all registered observers
    synchronously with the new collection"; the computing and storing is the
    handler of the sources ([addTodo] or [toggleTodo], which end in
    [setTodos]), run on what the container holds. *)
Definition commit (o : op) (c : container) : option container :=
  match exec (run_op o) (held c) with
  | Some w' => Some (notify (mkContainer w' (observers c) (calls c)))
  | None => None
  end.

Fixpoint commits (os : list op) (c : container) : option container :=
  match os with
  | [] => Some c
  | o :: os' =>
      match commit o c with
      | Some c' => commits os' c'
      | None => None
      end
  end.

(** Several observers registered one after the other. *)
Definition registers (obs : list observer) (c : container) : container :=
  foldl (λ c o, register o c) c obs.

(** The values one observer was called with, oldest first. *)
Definition received (o : observer) (c : container) : list (list loc) :=
  snd <$> filter (λ call, call.1 = o) (calls c).

(** The collection after each operation of a run, oldest first. *)
Fixpoint snapshots (os : list op) (w : world) : list (list loc) :=
  match os with
  | [] => []
  | o :: os' =>
      match exec (run_op o) w with
      | Some w' => todos w' :: snapshots os' w'
      | None => []
      end
  end.

(** A small world to evaluate on: one todo, not done. *)
Definition w_one : world :=
  mkWorld {[ 1%positive := mkTodo "test" false ]} [1%positive] "".

(** Two todos with the same text, both not done: equal as values, distinct
    as objects. *)
Definition w_twins : world :=
  mkWorld {[ 1%positive := mkTodo "milk" false;
             2%positive := mkTodo "milk" false ]}
          [1%positive; 2%positive] "".


(** ** TodoList (React) *)

(** One [<li>] of the list: its [key], the [className] of the label, the
    [checked] of the checkbox, the handler of its [onChange], and the text
    shown. *)
Record li := mkLi {
  key : string;
  className : string;
  checked : bool;
  onChange : M unit;
  label : string
}.

(** The callback of [todos.map] in [TodoList]:
<<
    (todo) => (
      <li key={todo.text}>
        <label className={`${todo.complete ? 'complete' : ''}`}>
          <input type='checkbox' checked={todo.complete}
                 onChange={() => { toggleTodo(todo); }} />
          {todo.text}
        </label>
      </li>)
>> *)
Definition TodoList_item (toggleTodo : loc → M unit) (todo : loc) : M li :=
  let* o := deref todo in
  ret {| key := text o;
         className := if complete o then "complete" else "";
         checked := complete o;
         onChange := toggleTodo todo;
         label := text o |}.

(** [TodoList = ({ todos, toggleTodo }) => <ul>{todos.map(...)}</ul>] *)
Definition TodoList (todos : list loc) (toggleTodo : loc → M unit) :
    M (list li) :=
  array_map (TodoList_item toggleTodo) todos.

(** [<TodoList todos={todos} toggleTodo={toggleTodo} />] in [App]. *)
Definition App_TodoList : M (list li) :=
  let* todos := get_todos in
  TodoList todos toggleTodo.

(** What of an [<li>] can be seen. *)
Definition shown (item : li) : string * bool * string :=
  (className item, checked item, label item).

(** ** AddTodoForm (React): the input's [onChange]
<<
    setText(e.target.value);
>> *)
Definition AddTodoForm_onChange (value : string) : M unit :=
  setText value.

(** The user types [text] into the input and presses the button of the React
    form ([fireEvent.change] and [fireEvent.click] in App.spec). *)
Definition react_submit (text : string) : M unit :=
  run AddTodoForm_onChange text in
  AddTodoForm_onClick.

(** ** TodoList.svelte *)

(** The component-to-store direction of [bind:checked={todo.complete}]: the
    assignment [todo.complete = checked] to the object of the each block.
    The object is written in place. *)
Definition bind_checked (todo : loc) (checked : bool) : M unit :=
  λ w, match heap w !! todo with
       | Some o =>
           Some (tt, mkWorld (<[todo := {| text := text o; complete := checked |}]>
                                (heap w))
                             (todos w) (text_input w))
       | None => None
       end.

(** A click on the checkbox of [todo]: the box shows [todo.complete] (the
    store-to-component direction of the binding), the click inverts what it
    shows, and the binding writes that back. *)
Definition svelte_checkbox_click (todo : loc) : M unit :=
  let* o := deref todo in
  bind_checked todo (negb (complete o)).

(** One [<li>] of the each block:
<<
    {#each $todoListStore as todo}
    <li>
      <label class:complete={todo.complete}>
        <input type="checkbox" bind:checked={todo.complete} />{todo.text}
      </label>
    </li>
    {/each}
>>
    whether the label has the class [complete], the [checked] of the box, the
    object the box is bound to, and the text shown. *)
Record svelte_li := mkSvelteLi {
  class_complete : bool;
  bound_checked : bool;
  bound_todo : loc;
  shown_text : string
}.

Definition TodoList_svelte_item (todo : loc) : M svelte_li :=
  let* o := deref todo in
  ret {| class_complete := complete o;
         bound_checked := complete o;
         bound_todo := todo;
         shown_text := text o |}.

Definition TodoList_svelte : M (list svelte_li) :=
  let* todoListStore := get_todos in
  array_map TodoList_svelte_item todoListStore.

(** What of a Svelte [<li>] can be seen, in the terms of [shown]. *)
Definition svelte_shown (item : svelte_li) : string * bool * string :=
  (if class_complete item then "complete" else "",
   bound_checked item, shown_text item).

(** ** Pure counterparts of the handlers, on sequences of records *)

(** The records after [toggleTodo selectedTodo], from the references and the
    records before. *)
Definition toggled_records (selectedTodo : loc) (ts : list loc)
    (rs : list Todo) : list Todo :=
  zip_with (λ l o, if decide (l = selectedTodo) then flipped o else o) ts rs.

(** The [<li>] that [TodoList] makes of a todo and its record. *)
Definition li_of (toggleTodo : loc → M unit) (todo : loc) (o : Todo) : li :=
  mkLi (text o) (if complete o then "complete" else "") (complete o)
       (toggleTodo todo) (text o).

(** What [TodoList] shows of a record. *)
Definition shown_of_record (o : Todo) : string * bool * string :=
  (if complete o then "complete" else "", complete o, text o).

(** The [<li>] that the each block of [TodoList.svelte] makes of a todo and
    its record. *)
Definition svelte_li_of (todo : loc) (o : Todo) : svelte_li :=
  mkSvelteLi (complete o) (complete o) todo (text o).

(** The texts a run of operations adds, in order. *)
Definition added_texts (os : list op) : list string :=
  omap (λ o, match o with Add t => Some t | Toggle _ => None end) os.

(** How an element [l'] of [newTodos] relates to the element [l] of [todos]
    at the same index, when [toggleTodo selectedTodo] takes heap [h] to heap
    [h']: the selected object is replaced by a new object with [complete]
    inverted, any other element is kept. *)
Definition toggled_elem (selectedTodo : loc) (h h' : gmap loc Todo)
    (l l' : loc) : Prop :=
  if decide (l = selectedTodo) then
    h !! l' = None ∧ ∃ o, h !! l = Some o ∧ h' !! l' = Some (flipped o)
  else l' = l.

(** One round of calls: every observer, in registration order, with [v]. *)
Definition round (obs : list observer) (v : list loc) :
    list (observer * list loc) :=
  (λ o, (o, v)) <$> obs.

(** * Proofs *)

(** ** The heap only grows *)

Section toggle_map.
Variable selectedTodo : loc.

Lemma toggled_elem_weaken h0 h h' l l' :
  h0 ⊆ h → is_Some (h0 !! l) →
  toggled_elem selectedTodo h h' l l' → toggled_elem selectedTodo h0 h' l l'.
Proof.
  unfold toggled_elem. intros Hsub0 [o0 Ho0] Hel.
  case_decide; [|done].
  destruct Hel as (Hnone & o & Ho & Ho').
  split.
  - destruct (h0 !! l') as [x|] eqn:E; [|done].
    apply (lookup_weaken _ _ _ _ E) in Hsub0. congruence.
  - exists o0. split; [done|].
    apply (lookup_weaken _ _ _ _ Ho0) in Hsub0. congruence.
Qed.

Lemma toggle_callback_hit h v x o :
  h !! selectedTodo = Some o →
  toggle_callback selectedTodo selectedTodo (mkWorld h v x)
    = Some (fresh (dom h),
            mkWorld (<[fresh (dom h) := flipped o]> h) v x).
Proof.
  intros Ho. unfold toggle_callback. rewrite decide_True by done.
  unfold bind, deref. cbn [heap]. by rewrite Ho.
Qed.

Lemma toggle_callback_miss l w :
  l ≠ selectedTodo → toggle_callback selectedTodo l w = Some (l, w).
Proof. intros Hne. unfold toggle_callback. by rewrite decide_False. Qed.

Lemma array_map_toggle (ts : list loc) :
  ∀ h v x,
    Forall (λ l, is_Some (h !! l)) ts →
    ∃ ts' h',
      array_map (toggle_callback selectedTodo) ts (mkWorld h v x)
        = Some (ts', mkWorld h' v x)
      ∧ h ⊆ h'
      ∧ Forall2 (toggled_elem selectedTodo h h') ts ts'.
Proof.
  induction ts as [|l ts IH]; intros h v x Hwf.
  - exists [], h. split; [done|]. split; [done|]. constructor.
  - apply Forall_cons in Hwf as [[o Ho] Hwf].
    cbn [array_map]. unfold bind at 1.
    destruct (decide (l = selectedTodo)) as [->|Hne].
    + rewrite (toggle_callback_hit _ _ _ _ Ho).
      set (l' := fresh (dom h)).
      assert (Hfresh : h !! l' = None).
      { apply not_elem_of_dom, is_fresh. }
      set (h1 := <[l' := flipped o]> h).
      assert (Hsub1 : h ⊆ h1) by by apply insert_subseteq.
      destruct (IH h1 v x) as (ts' & h' & Hrun & Hsub & Hall).
      { eapply Forall_impl; [exact Hwf|]. intros k [ok Hk].
        exists ok. by eapply lookup_weaken. }
      exists (l' :: ts'), h'.
      unfold bind. rewrite Hrun. split; [done|].
      split; [by etrans|].
      constructor.
      * unfold toggled_elem. rewrite decide_True by done.
        split; [done|]. exists o. split; [done|].
        eapply lookup_weaken; [|exact Hsub]. apply lookup_insert_eq.
      * apply Forall2_same_length_lookup.
        split; [by eapply Forall2_length|].
        intros i k k' Hk Hk'.
        eapply toggled_elem_weaken; [exact Hsub1| |].
        -- eapply (Forall_lookup_1 _ _ _ _ Hwf Hk).
        -- eapply Forall2_lookup_lr; eauto.
    + rewrite toggle_callback_miss by done.
      destruct (IH h v x Hwf) as (ts' & h' & Hrun & Hsub & Hall).
      exists (l :: ts'), h'.
      unfold bind. rewrite Hrun. split; [done|]. split; [done|].
      constructor; [|done].
      unfold toggled_elem. by rewrite decide_False.
Qed.
End toggle_map.

(** ** [toggleTodo] and [addTodo] on a world *)

Lemma world_eta w : mkWorld (heap w) (todos w) (text_input w) = w.
Proof. by destruct w. Qed.

Lemma flipped_flipped o : flipped (flipped o) = o.
Proof. destruct o as [t c]. unfold flipped. cbn. by rewrite negb_involutive. Qed.

Lemma toggleTodo_run selectedTodo w :
  wf w →
  ∃ ts' h',
    exec (toggleTodo selectedTodo) w = Some (mkWorld h' ts' (text_input w))
    ∧ heap w ⊆ h'
    ∧ Forall2 (toggled_elem selectedTodo (heap w) h') (todos w) ts'.
Proof.
  intros Hwf.
  destruct (array_map_toggle selectedTodo (todos w)
              (heap w) (todos w) (text_input w) Hwf)
    as (ts' & h' & Hrun & Hsub & Hall).
  exists ts', h'. split; [|done].
  unfold exec, toggleTodo, bind, get_todos.
  rewrite world_eta in Hrun. by rewrite Hrun.
Qed.

Lemma toggled_elem_alive selectedTodo h h' l l' :
  h ⊆ h' → is_Some (h !! l) →
  toggled_elem selectedTodo h h' l l' → is_Some (h' !! l').
Proof.
  unfold toggled_elem. intros Hsub [o Ho] Hel. case_decide.
  - destruct Hel as (_ & o' & _ & Ho'). by exists (flipped o').
  - subst l'. exists o. by eapply lookup_weaken.
Qed.

Lemma toggleTodo_wf selectedTodo w w' :
  wf w → exec (toggleTodo selectedTodo) w = Some w' → wf w'.
Proof.
  intros Hwf Hex.
  destruct (toggleTodo_run selectedTodo w Hwf) as (ts' & h' & Hrun & Hsub & Hall).
  rewrite Hrun in Hex. injection Hex as <-.
  unfold wf. cbn [heap todos].
  apply Forall_lookup_2. intros i l' Hl'.
  destruct (Forall2_lookup_r _ _ _ _ _ Hall Hl') as (l & Hl & Hel).
  eapply toggled_elem_alive; [exact Hsub| |exact Hel].
  exact (Forall_lookup_1 _ _ _ _ Hwf Hl).
Qed.

Lemma addTodo_run text w :
  exec (addTodo text) w
    = Some (mkWorld (<[fresh (dom (heap w)) := mkTodo text false]> (heap w))
                    (todos w ++ [fresh (dom (heap w))])
                    (text_input w)).
Proof. reflexivity. Qed.

Lemma fresh_loc_unused (h : gmap loc Todo) : h !! fresh (dom h) = None.
Proof. apply not_elem_of_dom, is_fresh. Qed.

Lemma alloc_grows (h : gmap loc Todo) o : h ⊆ <[fresh (dom h) := o]> h.
Proof. apply insert_subseteq, fresh_loc_unused. Qed.

Lemma addTodo_wf text w w' :
  wf w → exec (addTodo text) w = Some w' → wf w'.
Proof.
  intros Hwf Hex. rewrite addTodo_run in Hex. injection Hex as <-.
  unfold wf. cbn [heap todos]. apply Forall_app. split.
  - eapply Forall_impl; [exact Hwf|]. intros l [o Ho]. exists o.
    eapply lookup_weaken; [exact Ho|apply alloc_grows].
  - apply Forall_singleton. rewrite lookup_insert_eq. by eexists.
Qed.

Lemma run_op_wf o w w' : wf w → exec (run_op o) w = Some w' → wf w'.
Proof.
  destruct o; cbn [run_op]; eauto using addTodo_wf, toggleTodo_wf.
Qed.

Lemma array_map_no_match selectedTodo (ts : list loc) w :
  selectedTodo ∉ ts →
  array_map (toggle_callback selectedTodo) ts w = Some (ts, w).
Proof.
  induction ts as [|l ts IH]; intros Hnot; [done|].
  apply not_elem_of_cons in Hnot as [Hne Hnot].
  cbn [array_map]. unfold bind at 1.
  rewrite toggle_callback_miss by done.
  unfold bind. by rewrite IH.
Qed.

(** Everything the proofs below need about one [toggleTodo]. *)
Lemma toggleTodo_spec selectedTodo w :
  wf w →
  ∃ w',
    exec (toggleTodo selectedTodo) w = Some w'
    ∧ wf w'
    ∧ heap w ⊆ heap w'
    ∧ text_input w' = text_input w
    ∧ Forall2 (toggled_elem selectedTodo (heap w) (heap w')) (todos w) (todos w').
Proof.
  intros Hwf.
  destruct (toggleTodo_run selectedTodo w Hwf) as (ts' & h' & Hrun & Hsub & Hall).
  eexists. split; [exact Hrun|].
  split; [by eapply toggleTodo_wf|]. done.
Qed.

(** The record at one index, before and after. *)
Lemma toggled_record_at selectedTodo w w' i l o :
  heap w ⊆ heap w' →
  Forall2 (toggled_elem selectedTodo (heap w) (heap w')) (todos w) (todos w') →
  todos w !! i = Some l → heap w !! l = Some o →
  if decide (l = selectedTodo)
  then record_at w' i = Some (flipped o)
       ∧ ∃ l', todos w' !! i = Some l' ∧ heap w !! l' = None
  else todos w' !! i = Some l ∧ record_at w' i = Some o.
Proof.
  intros Hsub Hall Hl Ho.
  destruct (Forall2_lookup_l _ _ _ _ _ Hall Hl) as (l' & Hl' & Hel).
  unfold toggled_elem in Hel. unfold record_at. rewrite Hl'.
  case_decide.
  - destruct Hel as (Hnone & o' & Ho' & Hflip).
    assert (o' = o) as -> by congruence. eauto.
  - subst l'. split; [done|]. by eapply lookup_weaken.
Qed.

Lemma record_at_Some w i o :
  record_at w i = Some o ↔ ∃ l, todos w !! i = Some l ∧ heap w !! l = Some o.
Proof.
  unfold record_at. split.
  - destruct (todos w !! i) as [l|]; [eauto|done].
  - by intros (l & -> & ->).
Qed.

Lemma record_at_wf w i l :
  wf w → todos w !! i = Some l → ∃ o, heap w !! l = Some o.
Proof. intros Hwf Hl. exact (Forall_lookup_1 _ _ _ _ Hwf Hl). Qed.

Lemma toggleTodo_no_match selectedTodo w :
  selectedTodo ∉ todos w →
  exec (toggleTodo selectedTodo) w = Some w.
Proof.
  intros Hnot. unfold exec, toggleTodo, bind, get_todos.
  rewrite (array_map_no_match _ _ _ Hnot). cbn. by rewrite world_eta.
Qed.

(** * The claims *)

(** ** Toggle *)

(** C8 — Toggling with a record that is no element of the collection (no
    element [===] it) changes nothing: the handler returns normally and the
    collection holds the same records, in the same order, as before. *)
Theorem toggleTodo_absent_noop w selectedTodo :
  selectedTodo ∉ todos w →
  exec (toggleTodo selectedTodo) w = Some w.
Proof. apply toggleTodo_no_match. Qed.

Lemma toggleTodo_absent_noop_witness :
  (2%positive ∉ todos w_one) ∧ exec (toggleTodo 2) w_one = Some w_one.
Proof.
  assert (H : 2%positive ∉ todos w_one).
  { cbn. intros Hin. apply list_elem_of_singleton in Hin. discriminate Hin. }
  split; [exact H | exact (toggleTodo_absent_noop w_one 2%positive H)].
Defined.

(** C9 — [toggleTodo] keeps the length of the collection and the position of
    every record: at each index the new collection holds the old record
    itself or its copy with [complete] inverted, so the texts read off the
    two collections index by index are the same. *)
Theorem toggleTodo_keeps_positions w selectedTodo :
  wf w →
  ∃ w',
    exec (toggleTodo selectedTodo) w = Some w'
    ∧ length (todos w') = length (todos w)
    ∧ ∀ i,
        text <$> record_at w' i = text <$> record_at w i
        ∧ (record_at w' i = record_at w i
           ∨ record_at w' i = flipped <$> record_at w i).
Proof.
  intros Hwf.
  destruct (toggleTodo_spec selectedTodo w Hwf)
    as (w' & Hrun & Hwf' & Hsub & _ & Hall).
  exists w'. split; [done|].
  pose proof (Forall2_length _ _ _ Hall) as Hlen.
  split; [done|]. intros i.
  destruct (todos w !! i) as [l|] eqn:Hl.
  - destruct (record_at_wf w i l Hwf Hl) as [o Ho].
    pose proof (toggled_record_at _ _ _ _ _ _ Hsub Hall Hl Ho) as Hat.
    assert (Hrec : record_at w i = Some o) by (apply record_at_Some; eauto).
    rewrite Hrec. case_decide.
    + destruct Hat as [-> _]. split; [done|]. by right.
    + destruct Hat as [_ ->]. split; [done|]. by left.
  - assert (Hnone : todos w' !! i = None).
    { apply lookup_ge_None. rewrite <- Hlen. by apply lookup_ge_None. }
    unfold record_at. rewrite Hl, Hnone. split; [done|]. by left.
Qed.

Example toggle_w_one :
  (exec (toggleTodo 1) w_one ≫= λ w, record_at w 0) = Some (mkTodo "test" true).
Proof. vm_compute. reflexivity. Qed.

Lemma wf_w_one : wf w_one.
Proof.
  unfold wf, w_one. cbn. apply Forall_singleton.
  exists (mkTodo "test" false). reflexivity.
Qed.

Lemma toggleTodo_keeps_positions_witness :
  ∃ w',
    exec (toggleTodo 1) w_one = Some w'
    ∧ length (todos w') = length (todos w_one)
    ∧ ∀ i,
        text <$> record_at w' i = text <$> record_at w_one i
        ∧ (record_at w' i = record_at w_one i
           ∨ record_at w' i = flipped <$> record_at w_one i).
Proof. exact (toggleTodo_keeps_positions w_one 1%positive wf_w_one). Defined.

Lemma wf_w_twins : wf w_twins.
Proof.
  unfold wf, w_twins. cbn. repeat constructor; eexists; reflexivity.
Qed.

(** Only the object that [===] the argument is replaced, not its twin. *)
Example toggle_w_twins :
  (exec (toggleTodo 1) w_twins ≫= λ w, mapM (record_at w) [0; 1])
    = Some [mkTodo "milk" true; mkTodo "milk" false].
Proof. vm_compute. reflexivity. Qed.

(** C4 — Toggling a record of the collection leaves every other record as it
    was: no object that existed before is modified, at every index that held
    another record the collection still holds that very record, and at the
    indices that held the selected one it holds a record with the same [text]
    and [complete] inverted. *)
Theorem toggleTodo_isolation w selectedTodo :
  wf w → selectedTodo ∈ todos w →
  ∃ w',
    exec (toggleTodo selectedTodo) w = Some w'
    ∧ (∀ l o, heap w !! l = Some o → heap w' !! l = Some o)
    ∧ ∀ i l, todos w !! i = Some l →
        if decide (l = selectedTodo)
        then record_at w' i = flipped <$> record_at w i
        else todos w' !! i = Some l ∧ record_at w' i = record_at w i.
Proof.
  intros Hwf _.
  destruct (toggleTodo_spec selectedTodo w Hwf)
    as (w' & Hrun & Hwf' & Hsub & _ & Hall).
  exists w'. split; [done|]. split.
  - intros l o Ho. by eapply lookup_weaken.
  - intros i l Hl.
    destruct (record_at_wf w i l Hwf Hl) as [o Ho].
    pose proof (toggled_record_at _ _ _ _ _ _ Hsub Hall Hl Ho) as Hat.
    assert (Hrec : record_at w i = Some o) by (apply record_at_Some; eauto).
    rewrite Hrec. case_decide.
    + by destruct Hat as [-> _].
    + done.
Qed.

Lemma toggleTodo_isolation_witness :
  ∃ w',
    exec (toggleTodo 1) w_twins = Some w'
    ∧ (∀ l o, heap w_twins !! l = Some o → heap w' !! l = Some o)
    ∧ ∀ i l, todos w_twins !! i = Some l →
        if decide (l = 1%positive)
        then record_at w' i = flipped <$> record_at w_twins i
        else todos w' !! i = Some l ∧ record_at w' i = record_at w_twins i.
Proof.
  apply (toggleTodo_isolation w_twins 1%positive wf_w_twins).
  cbn. apply list_elem_of_here.
Defined.

(** C1, as stated, fails — Toggling twice with the same reference does not
    restore [complete]: the first call puts a new object in the place of the
    selected one, so the second call finds nothing that [===] its argument.
    On the one-element collection the record is not done before and done
    after the two calls. *)
Lemma toggleTodo_twice_same_reference :
  (complete <$> record_at w_one 0) = Some false
  ∧ (w1 ← exec (toggleTodo 1) w_one;
     w2 ← exec (toggleTodo 1) w1;
     complete <$> record_at w2 0) = Some true.
Proof. split; vm_compute; reflexivity. Qed.

Lemma toggleTodo_drops_reference selectedTodo w w' :
  Forall2 (toggled_elem selectedTodo (heap w) (heap w')) (todos w) (todos w') →
  selectedTodo ∉ todos w'.
Proof.
  intros Hall Hin. apply list_elem_of_lookup in Hin as [j Hj].
  destruct (Forall2_lookup_r _ _ _ _ _ Hall Hj) as (l & Hl & Hel).
  unfold toggled_elem in Hel. case_decide.
  - destruct Hel as (Hnone & o & Ho & _). congruence.
  - congruence.
Qed.

(** C1, amended — After a toggle the collection holds, at the index of the
    selected record, a new record with [complete] inverted.  Toggling again
    with the same reference changes nothing (no element is that object any
    more); toggling with the record now at that index restores the original
    [text] and [complete]. *)
Theorem toggleTodo_twice_restores w selectedTodo i o :
  wf w → todos w !! i = Some selectedTodo → heap w !! selectedTodo = Some o →
  ∃ w1 selectedTodo1 w2,
    exec (toggleTodo selectedTodo) w = Some w1
    ∧ record_at w1 i = Some (flipped o)
    ∧ exec (toggleTodo selectedTodo) w1 = Some w1
    ∧ todos w1 !! i = Some selectedTodo1
    ∧ exec (toggleTodo selectedTodo1) w1 = Some w2
    ∧ record_at w2 i = Some o.
Proof.
  intros Hwf Hl Ho.
  destruct (toggleTodo_spec selectedTodo w Hwf)
    as (w1 & Hrun1 & Hwf1 & Hsub1 & _ & Hall1).
  pose proof (toggled_record_at _ _ _ _ _ _ Hsub1 Hall1 Hl Ho) as Hat1.
  rewrite decide_True in Hat1 by done.
  destruct Hat1 as (Hrec1 & l1 & Hl1 & _).
  assert (Ho1 : heap w1 !! l1 = Some (flipped o)).
  { apply record_at_Some in Hrec1 as (l & Hl' & Hfl). congruence. }
  destruct (toggleTodo_spec l1 w1 Hwf1)
    as (w2 & Hrun2 & _ & Hsub2 & _ & Hall2).
  pose proof (toggled_record_at _ _ _ _ _ _ Hsub2 Hall2 Hl1 Ho1) as Hat2.
  rewrite decide_True in Hat2 by done.
  destruct Hat2 as (Hrec2 & _).
  rewrite flipped_flipped in Hrec2.
  exists w1, l1, w2. split; [done|]. split; [done|]. split; [|done].
  apply toggleTodo_no_match.
  by eapply toggleTodo_drops_reference.
Qed.

Lemma toggleTodo_twice_restores_witness :
  ∃ w1 selectedTodo1 w2,
    exec (toggleTodo 1) w_one = Some w1
    ∧ record_at w1 0 = Some (flipped (mkTodo "test" false))
    ∧ exec (toggleTodo 1) w1 = Some w1
    ∧ todos w1 !! 0 = Some selectedTodo1
    ∧ exec (toggleTodo selectedTodo1) w1 = Some w2
    ∧ record_at w2 0 = Some (mkTodo "test" false).
Proof.
  apply (toggleTodo_twice_restores w_one 1%positive 0 (mkTodo "test" false)
           wf_w_one); reflexivity.
Defined.

(** ** Add *)

Lemma addTodo_appended text w :
  ∃ w', exec (addTodo text) w = Some w'
        ∧ text_input w' = text_input w
        ∧ appended w text w'.
Proof.
  eexists. split; [apply addTodo_run|]. split; [done|].
  exists (fresh (dom (heap w))). cbn [heap todos].
  split; [apply fresh_loc_unused|done].
Qed.

Lemma svelte_on_click_appended w :
  ∃ w', exec AddTodoForm_svelte_on_click w = Some w'
        ∧ text_input w' = ""
        ∧ appended w (text_input w) w'.
Proof.
  eexists. split; [reflexivity|]. split; [done|].
  exists (fresh (dom (heap w))). cbn [heap todos].
  split; [apply fresh_loc_unused|done].
Qed.

Lemma react_onClick_appended w :
  ∃ w', exec AddTodoForm_onClick w = Some w'
        ∧ text_input w' = ""
        ∧ appended w (text_input w) w'.
Proof.
  eexists. split; [reflexivity|]. split; [done|].
  exists (fresh (dom (heap w))). cbn [heap todos].
  split; [apply fresh_loc_unused|done].
Qed.

Lemma svelte_submit_appended text w :
  ∃ w', exec (svelte_submit text) w = Some w' ∧ appended w text w'.
Proof.
  eexists. split; [reflexivity|].
  exists (fresh (dom (heap w))). cbn [heap todos].
  split; [apply fresh_loc_unused|done].
Qed.

(** What [appended] means for the records read off the collection. *)
Lemma appended_length w text w' :
  appended w text w' → length (todos w') = S (length (todos w)).
Proof.
  intros (l & _ & _ & ->). rewrite length_app. cbn. lia.
Qed.

Lemma appended_last w text w' :
  appended w text w' →
  record_at w' (length (todos w)) = Some (mkTodo text false).
Proof.
  intros (l & _ & Hh & Ht). unfold record_at. rewrite Ht, Hh.
  rewrite lookup_app_r by lia. rewrite Nat.sub_diag. cbn.
  apply lookup_insert_eq.
Qed.

Lemma appended_old w text w' l o :
  appended w text w' → heap w !! l = Some o → heap w' !! l = Some o.
Proof.
  intros (l' & Hnone & Hh & _) Ho. rewrite Hh.
  rewrite lookup_insert_ne; [done|]. intros ->. congruence.
Qed.

Lemma mapM_lookup_weaken (h h' : gmap loc Todo) (ts : list loc) rs :
  (∀ l o, h !! l = Some o → h' !! l = Some o) →
  mapM (λ l, h !! l) ts = Some rs → mapM (λ l, h' !! l) ts = Some rs.
Proof.
  intros Hsub Hrs. apply mapM_Some. apply mapM_Some in Hrs.
  eapply Forall2_impl; [exact Hrs|]. intros l o. apply Hsub.
Qed.

Lemma appended_records w text w' rs :
  appended w text w' →
  records w = Some rs → records w' = Some (rs ++ [mkTodo text false]).
Proof.
  intros Happ Hrs. pose proof Happ as (l & Hnone & Hh & Ht).
  unfold records in *. rewrite Ht. apply mapM_Some.
  apply Forall2_app.
  - apply mapM_Some. apply (mapM_lookup_weaken (heap w)); [|exact Hrs].
    intros k o. by apply (appended_old w text w').
  - constructor; [|constructor]. rewrite Hh. apply lookup_insert_eq.
Qed.

(** C3 — Adding produces the old collection with the one record
    [{text, complete: false}] appended at the end, and this is the value now
    stored: the references held before are all kept, in order, followed by
    the reference of a new object; no object that existed is modified.  So for
    [addTodo] (React) and for the [on:click] of [AddTodoForm.svelte]. *)
Theorem add_appends_record :
  (∀ w text, ∃ w',
      exec (addTodo text) w = Some w'
      ∧ appended w text w'
      ∧ ∀ rs, records w = Some rs
              → records w' = Some (rs ++ [mkTodo text false]))
  ∧ (∀ w, ∃ w',
      exec AddTodoForm_svelte_on_click w = Some w'
      ∧ appended w (text_input w) w'
      ∧ ∀ rs, records w = Some rs
              → records w' = Some (rs ++ [mkTodo (text_input w) false])).
Proof.
  split.
  - intros w text.
    destruct (addTodo_appended text w) as (w' & Hrun & _ & Happ).
    exists w'. eauto using appended_records.
  - intros w.
    destruct (svelte_on_click_appended w) as (w' & Hrun & _ & Happ).
    exists w'. eauto using appended_records.
Qed.

(** C2 — The add logic does not look at its text: whatever the string, a
    record with exactly that text is appended.  So for [addTodo] with every
    argument, for the [on:click] of [AddTodoForm.svelte] with whatever the
    input holds, and for every text typed and submitted there; in particular
    the empty string is appended like any other, by [addTodo] and by the
    [on:click] when the input is empty. *)
Theorem add_takes_text_as_given :
  (∀ w text, ∃ w',
      exec (addTodo text) w = Some w'
      ∧ length (todos w') = S (length (todos w))
      ∧ record_at w' (length (todos w)) = Some (mkTodo text false))
  ∧ (∀ h ts x, ∃ w',
      exec (addTodo "") (mkWorld h ts x) = Some w'
      ∧ length (todos w') = S (length ts)
      ∧ record_at w' (length ts) = Some (mkTodo "" false))
  ∧ (∀ w, ∃ w',
      exec AddTodoForm_svelte_on_click w = Some w'
      ∧ length (todos w') = S (length (todos w))
      ∧ record_at w' (length (todos w))
        = Some (mkTodo (text_input w) false))
  ∧ (∀ w text, ∃ w',
      exec (svelte_submit text) w = Some w'
      ∧ length (todos w') = S (length (todos w))
      ∧ record_at w' (length (todos w)) = Some (mkTodo text false))
  ∧ (∀ h ts, ∃ w',
      exec AddTodoForm_svelte_on_click (mkWorld h ts "") = Some w'
      ∧ length (todos w') = S (length ts)
      ∧ record_at w' (length ts) = Some (mkTodo "" false)).
Proof.
  assert (Hadd : ∀ w text, ∃ w',
             exec (addTodo text) w = Some w'
             ∧ length (todos w') = S (length (todos w))
             ∧ record_at w' (length (todos w)) = Some (mkTodo text false)).
  { intros w text.
    destruct (addTodo_appended text w) as (w' & Hrun & _ & Happ).
    exists w'. eauto using appended_length, appended_last. }
  assert (Hclick : ∀ w, ∃ w',
             exec AddTodoForm_svelte_on_click w = Some w'
             ∧ length (todos w') = S (length (todos w))
             ∧ record_at w' (length (todos w))
               = Some (mkTodo (text_input w) false)).
  { intros w.
    destruct (svelte_on_click_appended w) as (w' & Hrun & _ & Happ).
    exists w'. eauto using appended_length, appended_last. }
  split; [exact Hadd|]. split; [|split; [exact Hclick|split]].
  - intros h ts x. apply (Hadd (mkWorld h ts x) "").
  - intros w text.
    destruct (svelte_submit_appended text w) as (w' & Hrun & Happ).
    exists w'. eauto using appended_length, appended_last.
  - intros h ts. apply (Hclick (mkWorld h ts "")).
Qed.

(** C10 — Pressing "Add Todo" leaves the form's text empty and the collection
    extended by one record that carries the text the form held: so for the
    [onClick] of the React form and for the [on:click] of the Svelte one. *)
Theorem submit_resets_text :
  (∀ w, ∃ w',
      exec AddTodoForm_onClick w = Some w'
      ∧ text_input w' = ""
      ∧ appended w (text_input w) w'
      ∧ record_at w' (length (todos w)) = Some (mkTodo (text_input w) false))
  ∧ (∀ w, ∃ w',
      exec AddTodoForm_svelte_on_click w = Some w'
      ∧ text_input w' = ""
      ∧ appended w (text_input w) w'
      ∧ record_at w' (length (todos w)) = Some (mkTodo (text_input w) false)).
Proof.
  split; intros w.
  - destruct (react_onClick_appended w) as (w' & Hrun & Htext & Happ).
    exists w'. eauto using appended_last.
  - destruct (svelte_on_click_appended w) as (w' & Hrun & Htext & Happ).
    exists w'. eauto using appended_last.
Qed.

(** A run of adds appends the records in the order of the calls. *)
Section add_sequence.
Variable add : string → M unit.
Hypothesis add_appended :
  ∀ text w, ∃ w', exec (add text) w = Some w' ∧ appended w text w'.

Lemma exec_all_adds texts :
  ∀ w rs,
    records w = Some rs →
    ∃ w', exec_all (add <$> texts) w = Some w'
          ∧ records w' = Some (rs ++ ((λ t, mkTodo t false) <$> texts)).
Proof.
  induction texts as [|t texts IH]; intros w rs Hrs.
  - exists w. cbn. by rewrite app_nil_r.
  - destruct (add_appended t w) as (w1 & Hrun & Happ).
    destruct (IH w1 _ (appended_records _ _ _ _ Happ Hrs)) as (w' & Hall & Hrs').
    exists w'. cbn [fmap list_fmap exec_all]. rewrite Hrun.
    split; [exact Hall|]. by rewrite <- app_assoc in Hrs'.
Qed.
End add_sequence.

Lemma run_op_Add_appended text w :
  ∃ w', exec (run_op (Add text)) w = Some w' ∧ appended w text w'.
Proof.
  destruct (addTodo_appended text w) as (w' & Hrun & _ & Happ). eauto.
Qed.

Lemma records_length w rs : records w = Some rs → length (todos w) = length rs.
Proof. unfold records. intros H. by apply length_mapM in H. Qed.

(** C5 — Starting from the empty collection, a sequence of adds yields a
    collection with as many records as there were adds, the records being
    [{text, complete: false}] for the texts in the order of the calls.  So for
    [addTodo] and for submissions through [AddTodoForm.svelte] into the
    store. *)
Theorem adds_in_call_order (texts : list string) h x :
  (∃ w',
      run_ops (Add <$> texts) (mkWorld h [] x) = Some w'
      ∧ length (todos w') = length texts
      ∧ records w' = Some ((λ t, mkTodo t false) <$> texts))
  ∧ (∃ w',
      exec_all (svelte_submit <$> texts) (mkWorld h [] x) = Some w'
      ∧ length (todos w') = length texts
      ∧ records w' = Some ((λ t, mkTodo t false) <$> texts)).
Proof.
  split.
  - destruct (exec_all_adds (λ t, run_op (Add t)) run_op_Add_appended
                texts (mkWorld h [] x) [] eq_refl) as (w' & Hall & Hrs).
    rewrite app_nil_l in Hrs.
    exists w'. unfold run_ops. rewrite <- list_fmap_compose.
    split; [exact Hall|].
    split; [|exact Hrs]. rewrite (records_length _ _ Hrs).
    by rewrite length_fmap.
  - destruct (exec_all_adds svelte_submit svelte_submit_appended
                texts (mkWorld h [] x) [] eq_refl) as (w' & Hall & Hrs).
    rewrite app_nil_l in Hrs.
    exists w'. split; [exact Hall|].
    split; [|exact Hrs]. rewrite (records_length _ _ Hrs).
    by rewrite length_fmap.
Qed.

(** ** Failure *)

Lemma run_ops_total os : ∀ w, wf w → ∃ w', run_ops os w = Some w' ∧ wf w'.
Proof.
  induction os as [|o os IH]; intros w Hwf.
  - by exists w.
  - assert (∃ w1, exec (run_op o) w = Some w1) as [w1 Hrun].
    { destruct o as [text|selectedTodo]; cbn [run_op].
      - destruct (addTodo_appended text w) as (w1 & Hrun & _). eauto.
      - destruct (toggleTodo_spec selectedTodo w Hwf) as (w1 & Hrun & _). eauto. }
    destruct (IH w1 (run_op_wf _ _ _ Hwf Hrun)) as (w' & Hall & Hwf').
    exists w'. unfold run_ops in *. cbn [fmap list_fmap exec_all].
    by rewrite Hrun.
Qed.

(** C7 — No operation fails.  In a world whose collection holds references
    to objects (a JavaScript array of objects holds nothing else), [addTodo]
    returns for every text and [toggleTodo] for every reference, whether it is
    in the collection or not, and so does every sequence of such calls. *)
Theorem operations_never_fail w :
  wf w →
  (∀ text, is_Some (exec (addTodo text) w))
  ∧ (∀ selectedTodo, is_Some (exec (toggleTodo selectedTodo) w))
  ∧ (∀ os, is_Some (run_ops os w)).
Proof.
  intros Hwf. split; [|split].
  - intros text. destruct (addTodo_appended text w) as (w' & Hrun & _). eauto.
  - intros selectedTodo.
    destruct (toggleTodo_spec selectedTodo w Hwf) as (w' & Hrun & _). eauto.
  - intros os. destruct (run_ops_total os w Hwf) as (w' & Hrun & _). eauto.
Qed.

Lemma operations_never_fail_witness :
  (∀ text, is_Some (exec (addTodo text) w_twins))
  ∧ (∀ selectedTodo, is_Some (exec (toggleTodo selectedTodo) w_twins))
  ∧ (∀ os, is_Some (run_ops os w_twins)).
Proof. exact (operations_never_fail w_twins wf_w_twins). Defined.

(** ** Observers *)

Lemma registers_spec obs : ∀ c,
  held (registers obs c) = held c
  ∧ observers (registers obs c) = observers c ++ obs
  ∧ calls (registers obs c) = calls c.
Proof.
  unfold registers.
  induction obs as [|o obs IH]; intros c; cbn [foldl].
  - by rewrite app_nil_r.
  - destruct (IH (register o c)) as (-> & -> & ->).
    cbn [register held observers calls]. by rewrite <- app_assoc.
Qed.

Lemma commits_spec os : ∀ c,
  wf (held c) →
  ∃ c',
    commits os c = Some c'
    ∧ observers c' = observers c
    ∧ calls c' = calls c ++ concat (round (observers c) <$> snapshots os (held c))
    ∧ length (snapshots os (held c)) = length os.
Proof.
  induction os as [|o os IH]; intros c Hwf.
  - exists c. cbn. by rewrite app_nil_r.
  - destruct (run_ops_total [o] (held c) Hwf) as (w1 & Hrun & Hwf1).
    unfold run_ops in Hrun. cbn [fmap list_fmap exec_all] in Hrun.
    destruct (exec (run_op o) (held c)) as [w1'|] eqn:Hex; [|done].
    injection Hrun as ->.
    cbn [commits snapshots]. unfold commit. rewrite Hex.
    set (c1 := notify _).
    destruct (IH c1 Hwf1) as (c' & Hall & Hobs & Hcalls & Hlen).
    exists c'. split; [done|]. split; [done|]. split.
    + rewrite Hcalls. subst c1. cbn [notify calls observers held current].
      cbn [fmap list_fmap concat]. by rewrite <- app_assoc.
    + subst c1. cbn [notify held] in Hlen. cbn. by rewrite Hlen.
Qed.

Lemma round_filter obs o v :
  NoDup obs → o ∈ obs →
  filter (λ call : observer * list loc, call.1 = o) (round obs v) = [(o, v)].
Proof.
  unfold round. induction 1 as [|o' obs Hnotin Hnd IH]; intros Hin.
  - by apply elem_of_nil in Hin.
  - cbn [fmap list_fmap]. apply elem_of_cons in Hin as [->|Hin].
    + rewrite filter_cons_True by done. f_equal.
      clear IH Hnd. induction obs as [|o2 obs IH2]; [done|].
      apply not_elem_of_cons in Hnotin as [Hne Hnotin].
      cbn [fmap list_fmap]. rewrite filter_cons_False; [by apply IH2|].
      cbn. congruence.
    + rewrite filter_cons_False; [by apply IH|].
      cbn. intros ->. done.
Qed.

Lemma rounds_received obs o (vs : list (list loc)) :
  NoDup obs → o ∈ obs →
  snd <$> filter (λ call : observer * list loc, call.1 = o)
            (concat (round obs <$> vs)) = vs.
Proof.
  intros Hnd Hin. induction vs as [|v vs IH]; [done|].
  cbn [fmap list_fmap concat]. rewrite filter_app, fmap_app.
  rewrite round_filter by done. cbn [fmap list_fmap app snd].
  f_equal. exact IH.
Qed.

Lemma snapshots_lookup os : ∀ w k,
  wf w → k < length os →
  snapshots os w !! k = todos <$> run_ops (take (S k) os) w.
Proof.
  unfold run_ops.
  induction os as [|o os IH]; intros w k Hwf Hk; [cbn in Hk; lia|].
  destruct (run_ops_total [o] w Hwf) as (w1 & Hrun & Hwf1).
  unfold run_ops in Hrun. cbn [fmap list_fmap exec_all] in Hrun.
  destruct (exec (run_op o) w) as [w1'|] eqn:Hex; [|done].
  injection Hrun as ->.
  cbn [snapshots take fmap list_fmap exec_all]. rewrite Hex.
  destruct k as [|k].
  - by rewrite take_0.
  - cbn [lookup list_lookup]. cbn in Hk. apply IH; [done|lia].
Qed.

(** C6 — With N observers registered before any change, a run of M
    operations (adds or toggles) makes M rounds of calls, one per operation:
    in each round every observer is called once, in registration order, with
    the collection that operation stored.  Hence each observer is called
    exactly M times, and its k-th call receives the collection as it is after
    the first k operations. *)
Theorem observers_fan_out w (obs : list observer) (os : list op) :
  wf w → NoDup obs →
  ∃ c',
    commits os (registers obs (mkContainer w [] [])) = Some c'
    ∧ calls c' = concat (round obs <$> snapshots os w)
    ∧ ∀ o, o ∈ obs →
        length (received o c') = length os
        ∧ ∀ k, k < length os →
            received o c' !! k = todos <$> run_ops (take (S k) os) w.
Proof.
  intros Hwf Hnd.
  set (c0 := registers obs (mkContainer w [] [])).
  destruct (registers_spec obs (mkContainer w [] [])) as (Hheld & Hobs & Hcalls).
  fold c0 in Hheld, Hobs, Hcalls. cbn [held observers calls app] in *.
  destruct (commits_spec os c0) as (c' & Hrun & _ & Hlog & Hlen).
  { by rewrite Hheld. }
  rewrite Hheld, Hobs, Hcalls in *. cbn [app] in Hlog.
  exists c'. split; [done|]. split; [done|].
  intros o Hin.
  assert (Hrec : received o c' = snapshots os w).
  { unfold received. rewrite Hlog. by apply rounds_received. }
  rewrite Hrec. split; [done|].
  intros k Hk. by apply snapshots_lookup.
Qed.

Lemma observers_fan_out_witness :
  ∃ c',
    commits [Add "milk"; Toggle 1; Toggle 7]
            (registers [0; 1] (mkContainer w_one [] [])) = Some c'
    ∧ calls c' = concat (round [0; 1]
                  <$> snapshots [Add "milk"; Toggle 1; Toggle 7] w_one)
    ∧ ∀ o, o ∈ [0; 1] →
        length (received o c') = length [Add "milk"; Toggle 1; Toggle 7]
        ∧ ∀ k, k < length [Add "milk"; Toggle 1; Toggle 7] →
            received o c' !! k
            = todos <$> run_ops (take (S k) [Add "milk"; Toggle 1; Toggle 7])
                                w_one.
Proof.
  apply (observers_fan_out w_one [0; 1] [Add "milk"; Toggle 1; Toggle 7]
           wf_w_one).
  apply NoDup_cons. split; [|apply NoDup_singleton].
  intros Hin. apply list_elem_of_singleton in Hin. discriminate Hin.
Defined.

Example fan_out_w_one :
  calls <$> commits [Add "milk"; Toggle 1]
              (registers [0; 1] (mkContainer w_one [] []))
  = Some [(0, [1; 2]%positive); (1, [1; 2]%positive);
          (0, [3; 2]%positive); (1, [3; 2]%positive)].
Proof. vm_compute. reflexivity. Qed.

(** * Further properties of the code *)

(** ** The collection as records *)

Lemma records_Forall2 w rs :
  records w = Some rs ↔ Forall2 (λ l o, heap w !! l = Some o) (todos w) rs.
Proof. unfold records. apply mapM_Some. Qed.

Lemma records_wf w rs : records w = Some rs → wf w.
Proof.
  intros Hrs. apply records_Forall2 in Hrs. unfold wf.
  apply Forall_lookup_2. intros i l Hl.
  destruct (Forall2_lookup_l _ _ _ _ _ Hrs Hl) as (o & _ & Ho). by exists o.
Qed.

Lemma wf_records w : wf w → ∃ rs, records w = Some rs.
Proof.
  unfold wf, records. intros Hwf.
  destruct (mapM (λ l, heap w !! l) (todos w)) as [rs|] eqn:E; [by exists rs|].
  exfalso. assert (Hs : is_Some (mapM (λ l, heap w !! l) (todos w))).
  { by apply mapM_is_Some. }
  rewrite E in Hs. by destruct Hs.
Qed.

Lemma records_lookup w rs i l o :
  records w = Some rs → todos w !! i = Some l → rs !! i = Some o →
  heap w !! l = Some o.
Proof.
  intros Hrs Hl Ho. apply records_Forall2 in Hrs.
  exact (Forall2_lookup_lr _ _ _ _ _ _ Hrs Hl Ho).
Qed.

Lemma toggled_records_lookup selectedTodo ts rs i l o :
  ts !! i = Some l → rs !! i = Some o →
  toggled_records selectedTodo ts rs !! i
    = Some (if decide (l = selectedTodo) then flipped o else o).
Proof.
  intros Hl Ho. unfold toggled_records.
  apply lookup_zip_with_Some. eauto.
Qed.

(** The records after one [toggleTodo], shared by the theorems below. *)
Lemma toggleTodo_records_gen selectedTodo w rs :
  records w = Some rs →
  ∃ w',
    exec (toggleTodo selectedTodo) w = Some w'
    ∧ wf w'
    ∧ heap w ⊆ heap w'
    ∧ Forall2 (toggled_elem selectedTodo (heap w) (heap w')) (todos w) (todos w')
    ∧ records w' = Some (toggled_records selectedTodo (todos w) rs).
Proof.
  intros Hrs. pose proof (records_wf _ _ Hrs) as Hwf.
  destruct (toggleTodo_spec selectedTodo w Hwf)
    as (w' & Hrun & Hwf' & Hsub & _ & Hall).
  exists w'. do 4 (split; [done|]).
  pose proof (Forall2_length _ _ _ Hall) as Hlen.
  pose proof (records_length _ _ Hrs) as Hlen'.
  apply records_Forall2. apply Forall2_same_length_lookup. split.
  - unfold toggled_records. rewrite length_zip_with. lia.
  - intros i l' o' Hl' Ho'.
    destruct (Forall2_lookup_r _ _ _ _ _ Hall Hl') as (l & Hl & _).
    destruct (lookup_lt_is_Some_2 rs i) as [o Ho].
    { rewrite <- Hlen'. by eapply lookup_lt_Some. }
    rewrite (toggled_records_lookup _ _ _ _ _ _ Hl Ho) in Ho'.
    injection Ho' as <-.
    pose proof (records_lookup _ _ _ _ _ Hrs Hl Ho) as Hheap.
    pose proof (toggled_record_at _ _ _ _ _ _ Hsub Hall Hl Hheap) as Hat.
    unfold record_at in Hat. rewrite Hl' in Hat.
    case_decide; [by destruct Hat as [? _]|by destruct Hat as [_ ?]].
Qed.

(** X1 — [toggleTodo] as a function on records: the new collection reads as
    the old one with the record inverted at every index that held the
    selected object, and the same record everywhere else. *)
Theorem toggleTodo_records w selectedTodo rs :
  records w = Some rs →
  ∃ w',
    exec (toggleTodo selectedTodo) w = Some w'
    ∧ records w' = Some (toggled_records selectedTodo (todos w) rs).
Proof.
  intros Hrs.
  destruct (toggleTodo_records_gen selectedTodo w rs Hrs)
    as (w' & Hrun & _ & _ & _ & Hrs').
  by exists w'.
Qed.

Lemma records_w_twins :
  records w_twins = Some [mkTodo "milk" false; mkTodo "milk" false].
Proof. vm_compute. reflexivity. Qed.

Lemma toggleTodo_records_witness :
  ∃ w',
    exec (toggleTodo 2) w_twins = Some w'
    ∧ records w' = Some (toggled_records 2 (todos w_twins)
                           [mkTodo "milk" false; mkTodo "milk" false]).
Proof. exact (toggleTodo_records w_twins 2%positive _ records_w_twins). Defined.

(** ** Invariants of [App] *)

Lemma run_op_heap_grows o w :
  wf w →
  ∃ w', exec (run_op o) w = Some w'
        ∧ wf w'
        ∧ heap w ⊆ heap w'
        ∧ text_input w' = text_input w.
Proof.
  intros Hwf. destruct o as [text|selectedTodo]; cbn [run_op].
  - eexists. split; [apply addTodo_run|].
    split; [by eapply addTodo_wf; [|apply addTodo_run]|].
    split; [apply alloc_grows|done].
  - destruct (toggleTodo_spec selectedTodo w Hwf)
      as (w' & Hrun & Hwf' & Hsub & Htext & _).
    by exists w'.
Qed.

(** X2 — [App] never writes to an object: after any sequence of [addTodo] and
    [toggleTodo] every object that existed before is still there with the
    same [text] and [complete]; the handlers do not touch the form's text
    either. *)
Theorem App_never_mutates os : ∀ w,
  wf w →
  ∃ w',
    run_ops os w = Some w'
    ∧ (∀ l o, heap w !! l = Some o → heap w' !! l = Some o)
    ∧ text_input w' = text_input w.
Proof.
  unfold run_ops.
  induction os as [|o os IH]; intros w Hwf.
  - by exists w.
  - destruct (run_op_heap_grows o w Hwf) as (w1 & Hrun & Hwf1 & Hsub & Htext).
    destruct (IH w1 Hwf1) as (w' & Hall & Hkeep & Htext').
    exists w'. cbn [fmap list_fmap exec_all]. rewrite Hrun.
    split; [done|]. split; [|congruence].
    intros l x Hl. apply Hkeep. by eapply lookup_weaken.
Qed.

Lemma App_never_mutates_witness :
  ∃ w',
    run_ops [Toggle 1; Add "eggs"; Toggle 2] w_twins = Some w'
    ∧ (∀ l o, heap w_twins !! l = Some o → heap w' !! l = Some o)
    ∧ text_input w' = text_input w_twins.
Proof.
  exact (App_never_mutates [Toggle 1; Add "eggs"; Toggle 2] w_twins wf_w_twins).
Defined.

Lemma toggled_NoDup selectedTodo (h h' : gmap loc Todo) (ts ts' : list loc) :
  Forall (λ l, is_Some (h !! l)) ts →
  NoDup ts →
  Forall2 (toggled_elem selectedTodo h h') ts ts' →
  NoDup ts'.
Proof.
  intros Hwf Hnd Hall. apply NoDup_alt. intros i j x Hi Hj.
  destruct (Forall2_lookup_r _ _ _ _ _ Hall Hi) as (li & Hli & Hei).
  destruct (Forall2_lookup_r _ _ _ _ _ Hall Hj) as (lj & Hlj & Hej).
  pose proof (Forall_lookup_1 _ _ _ _ Hwf Hli) as [oi Hoi].
  pose proof (Forall_lookup_1 _ _ _ _ Hwf Hlj) as [oj Hoj].
  unfold toggled_elem in Hei, Hej.
  destruct (decide (li = selectedTodo)) as [->|Hni];
    destruct (decide (lj = selectedTodo)) as [->|Hnj].
  - eapply NoDup_lookup; eauto.
  - destruct Hei as (Hnone & _). subst x. congruence.
  - destruct Hej as (Hnone & _). subst x. congruence.
  - subst x. subst lj. eapply NoDup_lookup; eauto.
Qed.

Lemma run_op_NoDup o w :
  wf w → NoDup (todos w) →
  ∃ w', exec (run_op o) w = Some w' ∧ wf w' ∧ NoDup (todos w').
Proof.
  intros Hwf Hnd. destruct o as [text|selectedTodo]; cbn [run_op].
  - eexists. split; [apply addTodo_run|].
    split; [by eapply addTodo_wf; [|apply addTodo_run]|].
    cbn [todos]. apply NoDup_app. split; [done|]. split; [|apply NoDup_singleton].
    intros l Hl Hin. apply list_elem_of_singleton in Hin. subst l.
    apply list_elem_of_lookup in Hl as [i Hi].
    destruct (Forall_lookup_1 _ _ _ _ Hwf Hi) as [o Ho].
    rewrite fresh_loc_unused in Ho. done.
  - destruct (toggleTodo_spec selectedTodo w Hwf)
      as (w' & Hrun & Hwf' & _ & _ & Hall).
    exists w'. split; [done|]. split; [done|].
    exact (toggled_NoDup selectedTodo (heap w) (heap w') _ _ Hwf Hnd Hall).
Qed.

(** X3 — If no object occurs twice in the collection, none does after any
    sequence of [addTodo] and [toggleTodo]: both put new objects only, each
    at one index. *)
Theorem App_keeps_objects_distinct os : ∀ w,
  wf w → NoDup (todos w) →
  ∃ w', run_ops os w = Some w' ∧ NoDup (todos w').
Proof.
  unfold run_ops.
  induction os as [|o os IH]; intros w Hwf Hnd.
  - by exists w.
  - destruct (run_op_NoDup o w Hwf Hnd) as (w1 & Hrun & Hwf1 & Hnd1).
    destruct (IH w1 Hwf1 Hnd1) as (w' & Hall & Hnd').
    exists w'. cbn [fmap list_fmap exec_all]. by rewrite Hrun.
Qed.

Lemma NoDup_w_twins : NoDup (todos w_twins).
Proof.
  cbn. apply NoDup_cons. split; [|apply NoDup_singleton].
  intros Hin. apply list_elem_of_singleton in Hin. discriminate Hin.
Qed.

Lemma App_keeps_objects_distinct_witness :
  ∃ w', run_ops [Toggle 1; Add "eggs"; Toggle 2] w_twins = Some w'
        ∧ NoDup (todos w').
Proof.
  exact (App_keeps_objects_distinct [Toggle 1; Add "eggs"; Toggle 2]
           w_twins wf_w_twins NoDup_w_twins).
Defined.

(** ** One toggle, one record *)

Lemma toggled_records_alter selectedTodo (ts : list loc) (rs : list Todo) i :
  NoDup ts → ts !! i = Some selectedTodo → length ts = length rs →
  toggled_records selectedTodo ts rs = alter flipped i rs.
Proof.
  intros Hnd Hi Hlen. apply list_eq. intros j.
  destruct (ts !! j) as [l|] eqn:Hl.
  - destruct (lookup_lt_is_Some_2 rs j) as [o Ho].
    { rewrite <- Hlen. by eapply lookup_lt_Some. }
    rewrite (toggled_records_lookup _ _ _ _ _ _ Hl Ho).
    destruct (decide (i = j)) as [->|Hne].
    + rewrite list_lookup_alter_eq, Ho.
      assert (l = selectedTodo) as -> by congruence.
      by rewrite decide_True.
    + rewrite list_lookup_alter_ne, Ho by done.
      rewrite decide_False; [done|].
      intros ->. apply Hne. eapply NoDup_lookup; eauto.
  - apply lookup_ge_None in Hl.
    transitivity (@None Todo); [|symmetry].
    + apply lookup_ge_None. unfold toggled_records.
      rewrite length_zip_with. lia.
    + apply lookup_ge_None. rewrite length_alter. lia.
Qed.

(** One toggle of a collection without repeated objects, shared by the
    theorems below. *)
Lemma toggleTodo_one_gen selectedTodo w i rs :
  records w = Some rs → NoDup (todos w) → todos w !! i = Some selectedTodo →
  ∃ w',
    exec (toggleTodo selectedTodo) w = Some w'
    ∧ NoDup (todos w')
    ∧ records w' = Some (alter flipped i rs)
    ∧ ∀ j, j ≠ i → todos w' !! j = todos w !! j.
Proof.
  intros Hrs Hnd Hi.
  pose proof (records_wf _ _ Hrs) as Hwf.
  destruct (toggleTodo_records_gen selectedTodo w rs Hrs)
    as (w' & Hrun & Hwf' & Hsub & Hall & Hrs').
  exists w'. split; [done|].
  split; [exact (toggled_NoDup _ _ _ _ _ Hwf Hnd Hall)|]. split.
  - rewrite Hrs'. f_equal. apply toggled_records_alter; [done..|].
    by apply records_length.
  - intros j Hne. destruct (todos w !! j) as [l|] eqn:Hl.
    + destruct (Forall2_lookup_l _ _ _ _ _ Hall Hl) as (l' & Hl' & Hel).
      unfold toggled_elem in Hel. rewrite decide_False in Hel.
      * by subst l'.
      * intros ->. apply Hne. eapply NoDup_lookup; eauto.
    + apply lookup_ge_None. apply lookup_ge_None in Hl.
      by rewrite <- (Forall2_length _ _ _ Hall).
Qed.

(** X4 — In a collection where no object occurs twice, toggling the object
    at index [i] inverts the record at [i] and nothing else: the records
    read as before with [complete] inverted at [i], and every other index
    holds the very object it held. *)
Theorem toggleTodo_flips_one w selectedTodo i rs :
  records w = Some rs → NoDup (todos w) → todos w !! i = Some selectedTodo →
  ∃ w',
    exec (toggleTodo selectedTodo) w = Some w'
    ∧ records w' = Some (alter flipped i rs)
    ∧ ∀ j, j ≠ i → todos w' !! j = todos w !! j.
Proof.
  intros Hrs Hnd Hi.
  destruct (toggleTodo_one_gen selectedTodo w i rs Hrs Hnd Hi)
    as (w' & Hrun & _ & Hrs' & Hother).
  by exists w'.
Qed.

Lemma toggleTodo_flips_one_witness :
  ∃ w',
    exec (toggleTodo 2) w_twins = Some w'
    ∧ records w' = Some (alter flipped 1
                           [mkTodo "milk" false; mkTodo "milk" false])
    ∧ ∀ j, j ≠ 1 → todos w' !! j = todos w_twins !! j.
Proof.
  apply (toggleTodo_flips_one w_twins 2%positive 1 _
           records_w_twins NoDup_w_twins).
  reflexivity.
Defined.

(** ** What [TodoList] renders *)

Lemma TodoList_item_run toggle l o w :
  heap w !! l = Some o →
  TodoList_item toggle l w = Some (li_of toggle l o, w).
Proof.
  intros Ho. unfold TodoList_item, bind, deref. by rewrite Ho.
Qed.

Lemma TodoList_run toggle w (ts : list loc) (rs : list Todo) :
  Forall2 (λ l o, heap w !! l = Some o) ts rs →
  TodoList ts toggle w = Some (zip_with (li_of toggle) ts rs, w).
Proof.
  unfold TodoList. induction 1 as [|l o ts rs Ho _ IH]; [done|].
  cbn [array_map zip_with]. unfold bind at 1.
  rewrite (TodoList_item_run _ _ _ _ Ho).
  unfold bind. by rewrite IH.
Qed.

Lemma App_TodoList_run w rs :
  records w = Some rs →
  App_TodoList w = Some (zip_with (li_of toggleTodo) (todos w) rs, w).
Proof.
  intros Hrs. apply records_Forall2 in Hrs.
  unfold App_TodoList, bind, get_todos. by apply TodoList_run.
Qed.

Lemma fmap_li_of {A} (g : li → A) (f : Todo → A) toggle
    (ts : list loc) (rs : list Todo) :
  (∀ l o, g (li_of toggle l o) = f o) →
  length ts = length rs →
  g <$> zip_with (li_of toggle) ts rs = f <$> rs.
Proof.
  intros Hg. revert rs.
  induction ts as [|l ts IH]; intros [|o rs] Hlen; try done.
  cbn [zip_with fmap list_fmap]. rewrite Hg. f_equal.
  apply IH. cbn in Hlen. lia.
Qed.

(** X5 — [App] renders one [<li>] per record, in order, without changing
    anything: the key and the text shown are the record's [text], the box is
    checked exactly when the record is complete, and the label has the class
    [complete] exactly then. *)
Theorem App_TodoList_shows_records w :
  wf w →
  ∃ ul rs,
    App_TodoList w = Some (ul, w)
    ∧ records w = Some rs
    ∧ length ul = length (todos w)
    ∧ key <$> ul = text <$> rs
    ∧ label <$> ul = text <$> rs
    ∧ checked <$> ul = complete <$> rs
    ∧ ∀ item, item ∈ ul → (className item = "complete" ↔ checked item = true).
Proof.
  intros Hwf. destruct (wf_records w Hwf) as [rs Hrs].
  pose proof (records_length _ _ Hrs) as Hlen.
  exists (zip_with (li_of toggleTodo) (todos w) rs), rs.
  split; [by apply App_TodoList_run|]. split; [done|].
  split; [rewrite length_zip_with; lia|].
  do 3 (split; [by apply fmap_li_of|]).
  intros item Hin. apply list_elem_of_lookup in Hin as [i Hi].
  apply lookup_zip_with_Some in Hi as (l & o & -> & _ & _).
  unfold li_of. cbn. by destruct (complete o).
Qed.

Lemma App_TodoList_shows_records_witness :
  ∃ ul rs,
    App_TodoList w_twins = Some (ul, w_twins)
    ∧ records w_twins = Some rs
    ∧ length ul = length (todos w_twins)
    ∧ key <$> ul = text <$> rs
    ∧ label <$> ul = text <$> rs
    ∧ checked <$> ul = complete <$> rs
    ∧ ∀ item, item ∈ ul → (className item = "complete" ↔ checked item = true).
Proof. exact (App_TodoList_shows_records w_twins wf_w_twins). Defined.

(** X6 — Whatever handler [TodoList] is given as [toggleTodo], the
    [onChange] of the i-th checkbox is that handler applied to the i-th todo
    of [todos], the object itself; rendering changes nothing. *)
Theorem TodoList_onChange_passes_todo (toggle : loc → M unit)
    (ts : list loc) w :
  Forall (λ l, is_Some (heap w !! l)) ts →
  ∃ ul,
    TodoList ts toggle w = Some (ul, w)
    ∧ length ul = length ts
    ∧ ∀ i todo, ts !! i = Some todo →
        onChange <$> ul !! i = Some (toggle todo).
Proof.
  intros Hwf.
  assert (∃ rs, Forall2 (λ l o, heap w !! l = Some o) ts rs) as [rs Hrs].
  { apply mapM_is_Some_2 in Hwf as [rs Hrs]. exists rs. by apply mapM_Some. }
  exists (zip_with (li_of toggle) ts rs).
  split; [by apply TodoList_run|].
  pose proof (Forall2_length _ _ _ Hrs) as Hlen.
  split; [rewrite length_zip_with; lia|].
  intros i todo Hi.
  destruct (Forall2_lookup_l _ _ _ _ _ Hrs Hi) as (o & Ho & _).
  rewrite lookup_zip_with, Hi. cbn. by rewrite Ho.
Qed.

Lemma TodoList_onChange_passes_todo_witness :
  ∃ ul,
    TodoList (todos w_twins) (λ _, setText "clicked") w_twins
      = Some (ul, w_twins)
    ∧ length ul = length (todos w_twins)
    ∧ ∀ i todo, todos w_twins !! i = Some todo →
        onChange <$> ul !! i = Some (setText "clicked").
Proof.
  exact (TodoList_onChange_passes_todo _ (todos w_twins) w_twins wf_w_twins).
Defined.

Lemma alter_flipped_twice (rs : list Todo) i :
  alter flipped i (alter flipped i rs) = rs.
Proof.
  apply list_eq. intros j. destruct (decide (i = j)) as [->|Hne].
  - rewrite !list_lookup_alter_eq. destruct (rs !! j) as [o|]; [|done].
    cbn. by rewrite flipped_flipped.
  - by rewrite !list_lookup_alter_ne.
Qed.

Lemma shown_li_of toggle l o : shown (li_of toggle l o) = shown_of_record o.
Proof. done. Qed.

(** The list rendered after an add, shared by the theorems below. *)
Lemma appended_render w text w' rs :
  appended w text w' → records w = Some rs →
  records w' = Some (rs ++ [mkTodo text false])
  ∧ App_TodoList w'
    = Some (zip_with (li_of toggleTodo) (todos w') (rs ++ [mkTodo text false]),
            w').
Proof.
  intros Happ Hrs.
  pose proof (appended_records _ _ _ _ Happ Hrs) as Hrs'.
  split; [done|]. by apply App_TodoList_run.
Qed.

(** X7 — [addTodo] does not look for the text among the present ones, and
    [TodoList] keys its items by text: after adding [text] the keys are the
    old texts followed by [text], so adding a text that is already there
    gives two list items the same key. *)
Theorem addTodo_duplicate_text_duplicate_key w (t : string) rs :
  records w = Some rs →
  ∃ w' ul,
    exec (addTodo t) w = Some w'
    ∧ App_TodoList w' = Some (ul, w')
    ∧ key <$> ul = (text <$> rs) ++ [t]
    ∧ (t ∈ text <$> rs → ¬ NoDup (key <$> ul)).
Proof.
  intros Hrs.
  destruct (addTodo_appended t w) as (w' & Hrun & _ & Happ).
  destruct (appended_render _ _ _ _ Happ Hrs) as (Hrs' & Hrender).
  eexists w', _. split; [done|]. split; [exact Hrender|].
  assert (Hkeys : key <$> zip_with (li_of toggleTodo) (todos w')
                            (rs ++ [mkTodo t false])
                  = (text <$> rs) ++ [t]).
  { rewrite (fmap_li_of key text); [|done|by apply records_length].
    by rewrite fmap_app. }
  split; [exact Hkeys|].
  intros Hin Hnd. rewrite Hkeys in Hnd.
  apply NoDup_app in Hnd as (_ & Hdisj & _).
  apply (Hdisj t Hin). apply list_elem_of_here.
Qed.

Lemma addTodo_duplicate_text_duplicate_key_witness :
  ∃ w' ul,
    exec (addTodo "milk") w_twins = Some w'
    ∧ App_TodoList w' = Some (ul, w')
    ∧ key <$> ul
      = (text <$> [mkTodo "milk" false; mkTodo "milk" false]) ++ ["milk"]
    ∧ ("milk" ∈ text <$> [mkTodo "milk" false; mkTodo "milk" false]
       → ¬ NoDup (key <$> ul)).
Proof.
  exact (addTodo_duplicate_text_duplicate_key w_twins "milk" _ records_w_twins).
Defined.

Lemma react_submit_appended t w :
  ∃ w', exec (react_submit t) w = Some w'
        ∧ text_input w' = ""
        ∧ appended w t w'.
Proof.
  eexists. split; [reflexivity|]. split; [done|].
  exists (fresh (dom (heap w))). cbn [heap todos].
  split; [apply fresh_loc_unused|done].
Qed.

(** X8 — Typing a text into the React form and pressing the button leaves the
    input empty, and the list [App] then renders shows what it showed before
    followed by one more item with that text, unchecked and without the
    class [complete]. *)
Theorem react_submit_then_render w (t : string) rs :
  records w = Some rs →
  ∃ w' ul,
    exec (react_submit t) w = Some w'
    ∧ text_input w' = ""
    ∧ App_TodoList w' = Some (ul, w')
    ∧ shown <$> ul = (shown_of_record <$> rs) ++ [("", false, t)].
Proof.
  intros Hrs.
  destruct (react_submit_appended t w) as (w' & Hrun & Htext & Happ).
  destruct (appended_render _ _ _ _ Happ Hrs) as (Hrs' & Hrender).
  eexists w', _. split; [done|]. split; [done|]. split; [exact Hrender|].
  rewrite (fmap_li_of shown shown_of_record); [|done|by apply records_length].
  by rewrite fmap_app.
Qed.

Lemma react_submit_then_render_witness :
  ∃ w' ul,
    exec (react_submit "New Todo") w_twins = Some w'
    ∧ text_input w' = ""
    ∧ App_TodoList w' = Some (ul, w')
    ∧ shown <$> ul
      = (shown_of_record <$> [mkTodo "milk" false; mkTodo "milk" false])
        ++ [("", false, "New Todo")].
Proof.
  exact (react_submit_then_render w_twins "New Todo" _ records_w_twins).
Defined.

(** X9 — The two add forms do the same: for every sequence of texts typed
    and submitted, the React form (through [addTodo]) and the Svelte form
    (writing the store) leave the same objects, the same collection and the
    same, empty, input. *)
Theorem forms_agree (texts : list string) : ∀ w,
  exec_all (react_submit <$> texts) w = exec_all (svelte_submit <$> texts) w.
Proof.
  induction texts as [|t texts IH]; intros w; [done|].
  cbn [fmap list_fmap exec_all].
  change (exec (react_submit t) w) with (exec (svelte_submit t) w).
  destruct (exec (svelte_submit t) w) as [w'|]; [apply IH|done].
Qed.

(** X10 — Clicking a checkbox of the rendered React list, and then the
    checkbox at the same place of the list rendered next, brings back what
    was shown at first, when no object occurs twice in the collection: the
    second click passes the object the first click made. *)
Theorem checkbox_twice_restores_list w i todo :
  wf w → NoDup (todos w) → todos w !! i = Some todo →
  ∃ ul item w1 ul1 item1 w2 ul2,
    App_TodoList w = Some (ul, w)
    ∧ ul !! i = Some item
    ∧ exec (onChange item) w = Some w1
    ∧ App_TodoList w1 = Some (ul1, w1)
    ∧ ul1 !! i = Some item1
    ∧ checked item1 = negb (checked item)
    ∧ exec (onChange item1) w1 = Some w2
    ∧ App_TodoList w2 = Some (ul2, w2)
    ∧ shown <$> ul2 = shown <$> ul.
Proof.
  intros Hwf Hnd Hi.
  destruct (wf_records w Hwf) as [rs Hrs].
  pose proof (records_length _ _ Hrs) as Hlen.
  destruct (lookup_lt_is_Some_2 rs i) as [o Ho].
  { rewrite <- Hlen. by eapply lookup_lt_Some. }
  destruct (toggleTodo_one_gen todo w i rs Hrs Hnd Hi)
    as (w1 & Hrun1 & Hnd1 & Hrs1 & _).
  pose proof (records_length _ _ Hrs1) as Hlen1.
  rewrite length_alter in Hlen1.
  destruct (lookup_lt_is_Some_2 (todos w1) i) as [l1 Hl1].
  { rewrite Hlen1. by eapply lookup_lt_Some. }
  destruct (toggleTodo_one_gen l1 w1 i _ Hrs1 Hnd1 Hl1)
    as (w2 & Hrun2 & _ & Hrs2 & _).
  rewrite alter_flipped_twice in Hrs2.
  pose proof (records_length _ _ Hrs2) as Hlen2.
  exists (zip_with (li_of toggleTodo) (todos w) rs),
         (li_of toggleTodo todo o), w1,
         (zip_with (li_of toggleTodo) (todos w1) (alter flipped i rs)),
         (li_of toggleTodo l1 (flipped o)), w2,
         (zip_with (li_of toggleTodo) (todos w2) rs).
  split; [by apply App_TodoList_run|].
  split; [apply lookup_zip_with_Some; eauto|].
  split; [exact Hrun1|].
  split; [by apply App_TodoList_run|].
  split.
  { apply lookup_zip_with_Some. exists l1, (flipped o).
    split; [done|]. split; [done|].
    by rewrite list_lookup_alter_eq, Ho. }
  split; [done|].
  split; [exact Hrun2|].
  split; [by apply App_TodoList_run|].
  rewrite !(fmap_li_of shown shown_of_record); done.
Qed.

Lemma checkbox_twice_restores_list_witness :
  ∃ ul item w1 ul1 item1 w2 ul2,
    App_TodoList w_twins = Some (ul, w_twins)
    ∧ ul !! 1 = Some item
    ∧ exec (onChange item) w_twins = Some w1
    ∧ App_TodoList w1 = Some (ul1, w1)
    ∧ ul1 !! 1 = Some item1
    ∧ checked item1 = negb (checked item)
    ∧ exec (onChange item1) w1 = Some w2
    ∧ App_TodoList w2 = Some (ul2, w2)
    ∧ shown <$> ul2 = shown <$> ul.
Proof.
  apply (checkbox_twice_restores_list w_twins 1 2%positive
           wf_w_twins NoDup_w_twins).
  reflexivity.
Defined.

(** Without that hypothesis the second click repairs one index only: when
    one object stands at two indices, the first click inverts both (each
    gets its own new object), the second click only the one it is made on. *)
Example checkbox_twice_aliased :
  let w := mkWorld {[ 1%positive := mkTodo "milk" false ]}
                   [1%positive; 1%positive] "" in
  (w1 ← exec (toggleTodo 1) w;
   l1 ← todos w1 !! 0;
   w2 ← exec (toggleTodo l1) w1;
   records w2) = Some [mkTodo "milk" false; mkTodo "milk" true].
Proof. vm_compute. reflexivity. Qed.

(** ** TodoList.svelte: the bound checkbox *)

Lemma svelte_click_run todo o w :
  heap w !! todo = Some o →
  exec (svelte_checkbox_click todo) w
    = Some (mkWorld (<[todo := flipped o]> (heap w)) (todos w) (text_input w)).
Proof.
  intros Ho. unfold exec, svelte_checkbox_click, bind, deref, bind_checked.
  rewrite Ho. cbn [heap todos text_input]. by rewrite Ho.
Qed.

Lemma in_place_records todo o (h : gmap loc Todo) (ts : list loc) rs :
  h !! todo = Some o →
  Forall2 (λ l r, h !! l = Some r) ts rs →
  Forall2 (λ l r, <[todo := flipped o]> h !! l = Some r)
          ts (toggled_records todo ts rs).
Proof.
  intros Ho Hrs. pose proof (Forall2_length _ _ _ Hrs) as Hlen.
  apply Forall2_same_length_lookup. split.
  - unfold toggled_records. rewrite length_zip_with. lia.
  - intros i l r' Hl Hr'.
    destruct (Forall2_lookup_l _ _ _ _ _ Hrs Hl) as (r & Hr & Hh).
    rewrite (toggled_records_lookup _ _ _ _ _ _ Hl Hr) in Hr'.
    injection Hr' as <-. case_decide.
    + subst l. assert (r = o) as -> by congruence. apply lookup_insert_eq.
    + by rewrite lookup_insert_ne.
Qed.

(** The click on a bound checkbox, shared by the theorems below. *)
Lemma svelte_click_gen w todo rs :
  records w = Some rs → todo ∈ todos w →
  ∃ o,
    heap w !! todo = Some o
    ∧ exec (svelte_checkbox_click todo) w
      = Some (mkWorld (<[todo := flipped o]> (heap w)) (todos w) (text_input w))
    ∧ records (mkWorld (<[todo := flipped o]> (heap w)) (todos w) (text_input w))
      = Some (toggled_records todo (todos w) rs).
Proof.
  intros Hrs Hin. pose proof (records_wf _ _ Hrs) as Hwf.
  apply list_elem_of_lookup in Hin as [i Hi].
  destruct (Forall_lookup_1 _ _ _ _ Hwf Hi) as [o Ho].
  exists o. split; [done|]. split; [by apply svelte_click_run|].
  apply records_Forall2. cbn [heap todos].
  apply in_place_records; [done|]. by apply records_Forall2.
Qed.

(** X11 — A click on a checkbox of the Svelte list writes the object in
    place: the collection holds the same objects at the same indices, the
    record is inverted wherever that object stands, the text of the object
    stays, and no other object is touched. *)
Theorem svelte_click_in_place w todo rs :
  records w = Some rs → todo ∈ todos w →
  ∃ w',
    exec (svelte_checkbox_click todo) w = Some w'
    ∧ todos w' = todos w
    ∧ text_input w' = text_input w
    ∧ heap w' !! todo = flipped <$> heap w !! todo
    ∧ (∀ l, l ≠ todo → heap w' !! l = heap w !! l)
    ∧ records w' = Some (toggled_records todo (todos w) rs).
Proof.
  intros Hrs Hin.
  destruct (svelte_click_gen w todo rs Hrs Hin) as (o & Ho & Hrun & Hrs').
  eexists. split; [exact Hrun|]. cbn [heap todos text_input].
  split; [done|]. split; [done|].
  split; [by rewrite Ho, lookup_insert_eq|].
  split; [|done]. intros l Hne. by rewrite lookup_insert_ne.
Qed.

Lemma svelte_click_in_place_witness :
  ∃ w',
    exec (svelte_checkbox_click 2) w_twins = Some w'
    ∧ todos w' = todos w_twins
    ∧ text_input w' = text_input w_twins
    ∧ heap w' !! 2%positive = flipped <$> heap w_twins !! 2%positive
    ∧ (∀ l, l ≠ 2%positive → heap w' !! l = heap w_twins !! l)
    ∧ records w' = Some (toggled_records 2 (todos w_twins)
                           [mkTodo "milk" false; mkTodo "milk" false]).
Proof.
  apply (svelte_click_in_place w_twins 2%positive _ records_w_twins).
  cbn. apply list_elem_of_further, list_elem_of_here.
Defined.

(** X12 — Two clicks on the same checkbox of the Svelte list bring back the
    very state there was: the same objects with the same fields, the same
    collection. *)
Theorem svelte_click_twice_restores w todo :
  wf w → todo ∈ todos w →
  ∃ w1,
    exec (svelte_checkbox_click todo) w = Some w1
    ∧ exec (svelte_checkbox_click todo) w1 = Some w.
Proof.
  intros Hwf Hin.
  apply list_elem_of_lookup in Hin as [i Hi].
  destruct (Forall_lookup_1 _ _ _ _ Hwf Hi) as [o Ho].
  eexists. split; [by apply svelte_click_run|].
  rewrite (svelte_click_run todo (flipped o)).
  - cbn [heap todos text_input].
    rewrite insert_insert_eq, flipped_flipped, insert_id by done.
    by rewrite world_eta.
  - cbn [heap]. apply lookup_insert_eq.
Qed.

Lemma svelte_click_twice_restores_witness :
  ∃ w1,
    exec (svelte_checkbox_click 1) w_twins = Some w1
    ∧ exec (svelte_checkbox_click 1) w1 = Some w_twins.
Proof.
  apply (svelte_click_twice_restores w_twins 1%positive wf_w_twins).
  cbn. apply list_elem_of_here.
Defined.

(** X13 — The two lists toggle to the same records: on the same state,
    [toggleTodo] of the React app and a click on the bound checkbox of the
    Svelte app leave collections that read the same, record by record.  They
    differ in the objects: Svelte keeps the collection's objects, React's
    collection no longer holds the selected one. *)
Theorem toggles_agree w todo :
  wf w → todo ∈ todos w →
  ∃ w_react w_svelte,
    exec (toggleTodo todo) w = Some w_react
    ∧ exec (svelte_checkbox_click todo) w = Some w_svelte
    ∧ records w_react = records w_svelte
    ∧ is_Some (records w_react)
    ∧ todos w_svelte = todos w
    ∧ todo ∉ todos w_react.
Proof.
  intros Hwf Hin. destruct (wf_records w Hwf) as [rs Hrs].
  destruct (toggleTodo_records_gen todo w rs Hrs)
    as (wr & Hrun & _ & _ & Hall & Hrs').
  destruct (svelte_click_gen w todo rs Hrs Hin) as (o & Ho & Hrun' & Hrs'').
  eexists wr, _. split; [done|]. split; [exact Hrun'|].
  split; [by rewrite Hrs', Hrs''|]. split; [by rewrite Hrs'|].
  split; [done|]. by eapply toggleTodo_drops_reference.
Qed.

Lemma toggles_agree_witness :
  ∃ w_react w_svelte,
    exec (toggleTodo 1) w_twins = Some w_react
    ∧ exec (svelte_checkbox_click 1) w_twins = Some w_svelte
    ∧ records w_react = records w_svelte
    ∧ is_Some (records w_react)
    ∧ todos w_svelte = todos w_twins
    ∧ 1%positive ∉ todos w_react.
Proof.
  apply (toggles_agree w_twins 1%positive wf_w_twins).
  cbn. apply list_elem_of_here.
Defined.

(** ** The two lists side by side *)

Lemma TodoList_svelte_item_run l o w :
  heap w !! l = Some o →
  TodoList_svelte_item l w = Some (svelte_li_of l o, w).
Proof.
  intros Ho. unfold TodoList_svelte_item, bind, deref. by rewrite Ho.
Qed.

Lemma svelte_items_run w (ts : list loc) (rs : list Todo) :
  Forall2 (λ l o, heap w !! l = Some o) ts rs →
  array_map TodoList_svelte_item ts w = Some (zip_with svelte_li_of ts rs, w).
Proof.
  induction 1 as [|l o ts rs Ho _ IH]; [done|].
  cbn [array_map zip_with]. unfold bind at 1.
  rewrite (TodoList_svelte_item_run _ _ _ Ho).
  unfold bind. by rewrite IH.
Qed.

Lemma TodoList_svelte_run w rs :
  records w = Some rs →
  TodoList_svelte w = Some (zip_with svelte_li_of (todos w) rs, w).
Proof.
  intros Hrs. apply records_Forall2 in Hrs.
  unfold TodoList_svelte, bind, get_todos. by apply svelte_items_run.
Qed.

Lemma svelte_shown_li_of (ts : list loc) : ∀ rs : list Todo,
  length ts = length rs →
  svelte_shown <$> zip_with svelte_li_of ts rs = shown_of_record <$> rs.
Proof.
  induction ts as [|l ts IH]; intros [|o rs] Hlen; try done.
  cbn [zip_with fmap list_fmap]. f_equal. apply IH. cbn in Hlen. lia.
Qed.

(** X14 — On the same state the React list and the Svelte list show the same:
    item by item the same text, the same checked box, the class [complete]
    on the same labels; and each Svelte checkbox is bound to the object at
    its index of the store. *)
Theorem lists_show_the_same w :
  wf w →
  ∃ ul sl,
    App_TodoList w = Some (ul, w)
    ∧ TodoList_svelte w = Some (sl, w)
    ∧ shown <$> ul = svelte_shown <$> sl
    ∧ bound_todo <$> sl = todos w.
Proof.
  intros Hwf. destruct (wf_records w Hwf) as [rs Hrs].
  pose proof (records_length _ _ Hrs) as Hlen.
  eexists _, _. split; [by apply App_TodoList_run|].
  split; [by apply TodoList_svelte_run|]. split.
  - rewrite (fmap_li_of shown shown_of_record) by done.
    symmetry. by apply svelte_shown_li_of.
  - apply fmap_zip_with_l; [done|lia].
Qed.

Lemma lists_show_the_same_witness :
  ∃ ul sl,
    App_TodoList w_twins = Some (ul, w_twins)
    ∧ TodoList_svelte w_twins = Some (sl, w_twins)
    ∧ shown <$> ul = svelte_shown <$> sl
    ∧ bound_todo <$> sl = todos w_twins.
Proof. exact (lists_show_the_same w_twins wf_w_twins). Defined.

(** ** Toggles in either order *)

Lemma toggled_records_after a b (h h' : gmap loc Todo) (ts ts' : list loc) :
  a ≠ b → is_Some (h !! b) →
  Forall2 (toggled_elem a h h') ts ts' →
  ∀ rs, toggled_records b ts' rs = toggled_records b ts rs.
Proof.
  intros Hne [ob Hb]. unfold toggled_records.
  induction 1 as [|l l' ts ts' Hel _ IH]; intros [|o rs]; try done.
  cbn [zip_with]. rewrite IH. f_equal.
  unfold toggled_elem in Hel. destruct (decide (l = a)) as [->|Hla].
  - destruct Hel as (Hnone & _).
    rewrite !decide_False; [done|done|]. intros ->. congruence.
  - by subst l'.
Qed.

Lemma toggled_records_comm a b (ts : list loc) : ∀ rs,
  toggled_records b ts (toggled_records a ts rs)
  = toggled_records a ts (toggled_records b ts rs).
Proof.
  unfold toggled_records.
  induction ts as [|l ts IH]; intros [|o rs]; try done.
  cbn [zip_with]. rewrite IH. f_equal.
  by repeat case_decide.
Qed.

Lemma toggle_pair a b w rs :
  records w = Some rs → a ≠ b → is_Some (heap w !! b) →
  ∃ w2,
    run_ops [Toggle a; Toggle b] w = Some w2
    ∧ records w2
      = Some (toggled_records b (todos w) (toggled_records a (todos w) rs)).
Proof.
  intros Hrs Hne Hb.
  destruct (toggleTodo_records_gen a w rs Hrs)
    as (w1 & Hrun1 & _ & _ & Hall1 & Hrs1).
  destruct (toggleTodo_records_gen b w1 _ Hrs1)
    as (w2 & Hrun2 & _ & _ & _ & Hrs2).
  exists w2. unfold run_ops. cbn [fmap list_fmap exec_all run_op].
  rewrite Hrun1, Hrun2. split; [done|].
  rewrite Hrs2. f_equal.
  exact (toggled_records_after a b _ _ _ _ Hne Hb Hall1 _).
Qed.

(** X15 — Toggles of two different objects that both exist commute on the
    records: in either order the collection reads the same afterwards.  (An
    object that does not exist yet is another matter: its reference can be
    the one the other toggle allocates.) *)
Theorem toggles_commute w a b :
  wf w → a ≠ b → is_Some (heap w !! a) → is_Some (heap w !! b) →
  ∃ w_ab w_ba,
    run_ops [Toggle a; Toggle b] w = Some w_ab
    ∧ run_ops [Toggle b; Toggle a] w = Some w_ba
    ∧ records w_ab = records w_ba
    ∧ is_Some (records w_ab).
Proof.
  intros Hwf Hne Ha Hb. destruct (wf_records w Hwf) as [rs Hrs].
  destruct (toggle_pair a b w rs Hrs Hne Hb) as (w_ab & Hrun & Hrec).
  destruct (toggle_pair b a w rs Hrs (not_eq_sym Hne) Ha)
    as (w_ba & Hrun' & Hrec').
  exists w_ab, w_ba. split; [done|]. split; [done|].
  split; [|by rewrite Hrec].
  by rewrite Hrec, Hrec', toggled_records_comm.
Qed.

Lemma toggles_commute_witness :
  ∃ w_ab w_ba,
    run_ops [Toggle 1; Toggle 2] w_twins = Some w_ab
    ∧ run_ops [Toggle 2; Toggle 1] w_twins = Some w_ba
    ∧ records w_ab = records w_ba
    ∧ is_Some (records w_ab).
Proof.
  apply (toggles_commute w_twins 1%positive 2%positive wf_w_twins).
  - discriminate.
  - exists (mkTodo "milk" false). reflexivity.
  - exists (mkTodo "milk" false). reflexivity.
Defined.

(** The reference of an object that does not exist yet: toggled first it
    matches nothing, toggled second it is the copy the first toggle made. *)
Example toggles_commute_needs_objects :
  (records <$> run_ops [Toggle 1; Toggle 2] w_one)
    = Some (Some [mkTodo "test" false])
  ∧ (records <$> run_ops [Toggle 2; Toggle 1] w_one)
    = Some (Some [mkTodo "test" true]).
Proof. split; vm_compute; reflexivity. Qed.

(** ** Texts over a run *)

Lemma toggled_records_texts selectedTodo (ts : list loc) : ∀ rs : list Todo,
  length ts = length rs →
  text <$> toggled_records selectedTodo ts rs = text <$> rs.
Proof.
  unfold toggled_records.
  induction ts as [|l ts IH]; intros [|o rs] Hlen; try done.
  cbn [zip_with fmap list_fmap]. rewrite IH by (cbn in Hlen; lia).
  f_equal. by case_decide.
Qed.

(** X16 — No operation of [App] changes, drops or reorders a text: after any
    sequence of [addTodo] and [toggleTodo] the texts of the collection are
    the texts it had, in their order, followed by the added texts in the
    order of the calls. *)
Theorem App_texts_after_run os : ∀ w rs,
  records w = Some rs →
  ∃ w' rs',
    run_ops os w = Some w'
    ∧ records w' = Some rs'
    ∧ text <$> rs' = (text <$> rs) ++ added_texts os.
Proof.
  unfold run_ops.
  induction os as [|o os IH]; intros w rs Hrs.
  - exists w, rs. cbn. by rewrite app_nil_r.
  - cbn [fmap list_fmap exec_all]. destruct o as [t|selectedTodo]; cbn [run_op].
    + destruct (addTodo_appended t w) as (w1 & Hrun & _ & Happ).
      pose proof (appended_records _ _ _ _ Happ Hrs) as Hrs1.
      destruct (IH w1 _ Hrs1) as (w' & rs' & Hall & Hrs' & Htexts).
      exists w', rs'. rewrite Hrun. split; [done|]. split; [done|].
      rewrite Htexts, fmap_app. cbn. by rewrite <- app_assoc.
    + destruct (toggleTodo_records_gen selectedTodo w rs Hrs)
        as (w1 & Hrun & _ & _ & _ & Hrs1).
      destruct (IH w1 _ Hrs1) as (w' & rs' & Hall & Hrs' & Htexts).
      exists w', rs'. rewrite Hrun. split; [done|]. split; [done|].
      rewrite Htexts. cbn.
      by rewrite toggled_records_texts by by apply records_length.
Qed.

Lemma App_texts_after_run_witness :
  ∃ w' rs',
    run_ops [Toggle 1; Add "eggs"; Toggle 2; Add "tea"] w_twins = Some w'
    ∧ records w' = Some rs'
    ∧ text <$> rs'
      = (text <$> [mkTodo "milk" false; mkTodo "milk" false])
        ++ added_texts [Toggle 1; Add "eggs"; Toggle 2; Add "tea"].
Proof.
  exact (App_texts_after_run [Toggle 1; Add "eggs"; Toggle 2; Add "tea"]
           w_twins _ records_w_twins).
Defined.
